(** * Checkers AI: heuristic, minimax, alpha-beta and move selection

    A shallow embedding of [ai-server/ai.py], and of the game loop of
    [game-arena/arena.py] that consumes its moves.  The board and move
    objects come from the external [libcheckers] package; the search
    reaches them only through four operations, which are collected in the
    [BoardAPI] class below.  Everything else is translated function by
    function. *)

From Stdlib Require Import String ZArith List Bool Lia PeanoNat.
Import ListNotations.
Open Scope Z_scope.

(** ** Players and search values *)

(** [libcheckers.enum.Player]: WHITE = 1, BLACK = 2.  The source compares
    players against the literals [1] and [2] only. *)
Inductive Player : Type :=
| PlayerOne
| PlayerTwo.

Definition player_id (p : Player) : Z :=
  match p with
  | PlayerOne => 1
  | PlayerTwo => 2
  end.

Definition player_eqb (p q : Player) : bool := player_id p =? player_id q.

(** Search values: Python ints produced by the heuristic, together with
    [float("-inf")] and [float("inf")]. *)
Inductive Num : Type :=
| NegInf
| Int (z : Z)
| PosInf.

Module Num.

Definition ltb (a b : Num) : bool :=
  match a, b with
  | NegInf, NegInf => false
  | NegInf, _ => true
  | Int _, NegInf => false
  | Int x, Int y => x <? y
  | Int _, PosInf => true
  | PosInf, _ => false
  end.

Definition leb (a b : Num) : bool :=
  match a, b with
  | NegInf, _ => true
  | Int _, NegInf => false
  | Int x, Int y => x <=? y
  | Int _, PosInf => true
  | PosInf, PosInf => true
  | PosInf, _ => false
  end.

(** Python's two-argument [max(a, b)]: [a] is kept unless [b > a]. *)
Definition max (a b : Num) : Num := if ltb a b then b else a.

(** Python's two-argument [min(a, b)]: [a] is kept unless [b < a]. *)
Definition min (a b : Num) : Num := if ltb b a then b else a.

End Num.

(** ** The board interface consumed by the search *)

Class BoardAPI (Board Move Square : Type) : Type := {
  (** [board.get_available_moves(player)] *)
  get_available_moves : Board -> Player -> list Move;
  (** [move.apply(board)]: a new board, the argument is left untouched *)
  apply : Move -> Board -> Board;
  (** [board.get_player_squares(player)] *)
  get_player_squares : Board -> Player -> list Square;
  (** [board.piece_class[square]]; [PieceClass.KING] is [2] *)
  piece_class : Board -> Square -> Z
}.

(** ** Python helpers used by the selector *)

(** [max(xs)] on a list of ints; [None] stands for the [ValueError] that
    Python raises on an empty list. *)
Definition py_max_list (xs : list Z) : option Z :=
  match xs with
  | [] => None
  | x :: rest => Some (fold_left Z.max rest x)
  end.

(** [random.choice(xs)], with the generator's draw [r] made explicit;
    [None] stands for the [IndexError] raised on an empty list. *)
Definition random_choice {A : Type} (r : nat) (xs : list A) : option A :=
  match xs with
  | [] => None
  | _ :: _ => nth_error xs (r mod length xs)%nat
  end.

Section AI.

Context {Board Move Square : Type} `{API : BoardAPI Board Move Square}.

(** *** heuristic_function *)

(** One of the two counting loops of [heuristic_function]:
    [for square in squares: if board.piece_class[square] == 2: n += 1]. *)
Fixpoint count_kings (board : Board) (squares : list Square) (n : Z) : Z :=
  match squares with
  | [] => n
  | square :: rest =>
      count_kings board rest
        (if piece_class board square =? 2 then n + 1 else n)
  end.

Definition heuristic_function (board : Board) (player : Player) : Z :=
  let oponent := if player_id player =? 1 then PlayerTwo else PlayerOne in
  let sq_player := get_player_squares board player in
  let sq_oponent := get_player_squares board oponent in
  let n_player := Z.of_nat (length sq_player) in
  let n_oponent := Z.of_nat (length sq_oponent) in
  let n_pl_kings := count_kings board sq_player 0 in
  let n_op_kings := count_kings board sq_oponent 0 in
  (n_player - n_oponent) + (n_pl_kings - n_op_kings).

(** *** Leaves *)

(** The three lines shared by [minimax] and [alpha_beta] when the leaf
    test succeeds: grade the board, append the grade, return it. *)
Definition leaf (board : Board) (st_player : Player) (list_h : list Z)
  : Num * list Z :=
  let grade := heuristic_function board st_player in
  (Int grade, list_h ++ [grade]).

(** [len(board.get_available_moves(player)) == 0] *)
Definition no_moves (board : Board) (player : Player) : bool :=
  (length (get_available_moves board player) =? 0)%nat.

(** *** minimax *)

(** The value is returned together with the accumulator [list_h], which
    the source mutates in place.  [depth] is a natural number: the
    selector starts it at 4 and every call passes [depth-1]. *)
Fixpoint minimax (move : Move) (board : Board) (depth : nat)
    (player st_player : Player) (list_h : list Z) {struct depth}
  : Num * list Z :=
  match depth with
  | O => leaf board st_player list_h
  | S depth' =>
      if no_moves board player then leaf board st_player list_h
      else
        let new_board := apply move board in
        let moves := get_available_moves new_board player in
        match player with
        | PlayerOne =>
            fold_left
              (fun '(best_value, list_h) move =>
                 let '(v, list_h) :=
                   minimax move new_board depth' PlayerTwo st_player list_h in
                 (Num.max best_value v, list_h))
              moves (NegInf, list_h)
        | PlayerTwo =>
            fold_left
              (fun '(best_value, list_h) move =>
                 let '(v, list_h) :=
                   minimax move new_board depth' PlayerOne st_player list_h in
                 (Num.min best_value v, list_h))
              moves (NegInf, list_h)
        end
  end.

(** The bodies of the two [for move in moves] loops of [minimax], named
    so that lemmas can speak about them. *)
Definition max_step (new_board : Board) (depth : nat) (st_player : Player)
  : Num * list Z -> Move -> Num * list Z :=
  fun '(best_value, list_h) move =>
    let '(v, list_h) :=
      minimax move new_board depth PlayerTwo st_player list_h in
    (Num.max best_value v, list_h).

Definition min_step (new_board : Board) (depth : nat) (st_player : Player)
  : Num * list Z -> Move -> Num * list Z :=
  fun '(best_value, list_h) move =>
    let '(v, list_h) :=
      minimax move new_board depth PlayerOne st_player list_h in
    (Num.min best_value v, list_h).

(** *** alpha_beta *)

Section Loops.

(** The recursive call made by a loop body, as a function of the
    sibling move, the current bounds and the accumulator. *)
Variable child : Move -> Num -> Num -> list Z -> Num * list Z.

(** The [for move in moves] loop of the maximizing branch, with its
    [break]. *)
Fixpoint max_loop (moves : list Move) (v alfa beta : Num)
    (answers : list Z) : Num * list Z :=
  match moves with
  | [] => (v, answers)
  | move :: rest =>
      let '(r, answers) := child move alfa beta answers in
      let v := Num.max v r in
      let alfa := Num.max alfa v in
      if Num.leb beta alfa then (v, answers)
      else max_loop rest v alfa beta answers
  end.

(** The [for move in moves] loop of the minimizing branch, with its
    [break]. *)
Fixpoint min_loop (moves : list Move) (v alfa beta : Num)
    (answers : list Z) : Num * list Z :=
  match moves with
  | [] => (v, answers)
  | move :: rest =>
      let '(r, answers) := child move alfa beta answers in
      let v := Num.min v r in
      let beta := Num.min beta v in
      if Num.leb beta alfa then (v, answers)
      else min_loop rest v alfa beta answers
  end.

End Loops.

Fixpoint alpha_beta (move : Move) (board : Board) (depth : nat)
    (alfa beta : Num) (player st_player : Player) (answers : list Z)
    {struct depth} : Num * list Z :=
  match depth with
  | O => leaf board st_player answers
  | S depth' =>
      if no_moves board player then leaf board st_player answers
      else
        let new_board := apply move board in
        let moves := get_available_moves new_board player in
        match player with
        | PlayerOne =>
            max_loop
              (fun move alfa beta answers =>
                 alpha_beta move new_board depth' alfa beta
                   PlayerTwo st_player answers)
              moves NegInf alfa beta answers
        | PlayerTwo =>
            min_loop
              (fun move alfa beta answers =>
                 alpha_beta move new_board depth' alfa beta
                   PlayerOne st_player answers)
              moves NegInf alfa beta answers
        end
  end.

(** *** get_next_move *)

(** The body of the [if mode == ... elif mode == ...] statement: only
    its effect on [list_h] is used afterwards. *)
Definition run_search (mode : string) (move : Move) (board : Board)
    (pl player : Player) (list_h : list Z) : list Z :=
  if String.eqb mode "abpruning"%string then
    snd (alpha_beta move board 5 NegInf PosInf pl player list_h)
  else if String.eqb mode "minmax_simple"%string then
    snd (minimax move board 4 pl player list_h)
  else list_h.

(** [[m for m in range(len(grades)) if grades[m] == max(grades)]] *)
Definition best_moves_indeces (future_states_grades : list Z) : list nat :=
  filter
    (fun m =>
       match nth_error future_states_grades m,
             py_max_list future_states_grades with
       | Some g, Some best => g =? best
       | _, _ => false
       end)
    (seq 0 (length future_states_grades)).

(** The scoring loop of [get_next_move] followed by the final choice.
    [todo] is the part of [pos_moves] still to be scored; [None] stands
    for an exception escaping the function. *)
Fixpoint score_moves (r : nat) (mode : string) (board : Board)
    (pl player : Player) (pos_moves todo : list Move)
    (list_h future_states_grades : list Z) : option Move :=
  match todo with
  | [] =>
      match random_choice r (best_moves_indeces future_states_grades) with
      | Some i => nth_error pos_moves i
      | None => None
      end
  | move :: rest =>
      let list_h := run_search mode move board pl player list_h in
      match py_max_list list_h with
      | Some best =>
          score_moves r mode board pl player pos_moves rest
            [] (future_states_grades ++ [best])
      | None => random_choice r pos_moves
      end
  end.

Definition get_next_move (r : nat) (board : Board) (player : Player)
    (mode : string) : option Move :=
  let list_h := [] in
  let pos_moves := get_available_moves board player in
  let future_states_grades := [] in
  let pl := if player_id player =? 1 then PlayerTwo else PlayerOne in
  score_moves r mode board pl player pos_moves pos_moves
    list_h future_states_grades.

Definition pick_next_move (r : nat) (board : Board) (player : Player)
  : option Move :=
  get_next_move r board player "abpruning"%string.

End AI.

(** ** The vocabulary of the specification

    These definitions follow the wording of the specification; the
    theorems below compare them with the functions translated above. *)

Definition other (p : Player) : Player :=
  match p with
  | PlayerOne => PlayerTwo
  | PlayerTwo => PlayerOne
  end.

(** The minimum, respectively maximum, of a non-empty list of values. *)
Definition minimum (xs : list Num) : option Num :=
  match xs with
  | [] => None
  | x :: rest => Some (fold_left Num.min rest x)
  end.

Definition maximum (xs : list Num) : option Num :=
  match xs with
  | [] => None
  | x :: rest => Some (fold_left Num.max rest x)
  end.

(** The leaves appended by a pruned run, started on [answers], are
    among the leaves appended by an exhaustive run, started on
    [list_h]. *)
Definition kept (pruned : Num * list Z) (answers : list Z)
    (full : Num * list Z) (list_h : list Z) : Prop :=
  exists seen all,
    snd pruned = answers ++ seen
    /\ snd full = list_h ++ all
    /\ incl seen all.

Section Vocabulary.

Context {Board Move Square : Type} `{API : BoardAPI Board Move Square}.

Definition is_king (board : Board) (square : Square) : bool :=
  piece_class board square =? 2.

(** Number of squares owned by [p]. *)
Definition owned (board : Board) (p : Player) : Z :=
  Z.of_nat (length (get_player_squares board p)).

(** Number of squares owned by [p] whose piece is promoted. *)
Definition kings (board : Board) (p : Player) : Z :=
  Z.of_nat (length (filter (is_king board) (get_player_squares board p))).

(** Every square is owned by at most one of the two players. *)
Definition single_owner (board : Board) : Prop :=
  forall square,
    In square (get_player_squares board PlayerOne) ->
    In square (get_player_squares board PlayerTwo) -> False.

(** The leaf test of both searches. *)
Definition leaf_call (board : Board) (depth : nat) (player : Player) : Prop :=
  depth = O \/ get_available_moves board player = [].

(** The values returned by the recursive calls that a non-leaf
    [minimax] call on [(move, board, S depth', player)] makes, one per
    move enumerated on the post-move board. *)
Definition minimax_children (move : Move) (board : Board) (depth' : nat)
    (player st_player : Player) : list Num :=
  map
    (fun reply =>
       fst (minimax reply (apply move board) depth' (other player)
              st_player []))
    (get_available_moves (apply move board) player).

(** The same for [alpha_beta], each child being given the bounds
    [alfa] and [beta]. *)
Definition alpha_beta_children (move : Move) (board : Board) (depth' : nat)
    (alfa beta : Num) (player st_player : Player) : list Num :=
  map
    (fun reply =>
       fst (alpha_beta reply (apply move board) depth' alfa beta
              (other player) st_player []))
    (get_available_moves (apply move board) player).

(** The minimizing branch of [alpha_beta] as the specification words
    it: the loop of the source, with the running value starting at
    plus infinity. *)
Definition min_branch_specified (move : Move) (board : Board)
    (depth' : nat) (alfa beta : Num) (st_player : Player)
    (answers : list Z) : Num * list Z :=
  let new_board := apply move board in
  min_loop
    (fun move alfa beta answers =>
       alpha_beta move new_board depth' alfa beta PlayerOne st_player
         answers)
    (get_available_moves new_board PlayerTwo) PosInf alfa beta answers.

End Vocabulary.

(** ** A synthetic game implementing the board interface

    Positions are given explicitly: the pieces standing on squares
    [0, 1, ...] with their owner and class, and for each player the
    positions that player can move to.  A move object carries the position
    it leads to. *)

Module Synthetic.

#[local] Unset Elimination Schemes.
Inductive Position : Type :=
| Pos (pieces : list (Player * Z)) (replies1 replies2 : list Position).
#[local] Set Elimination Schemes.

Definition pieces_of (b : Position) : list (Player * Z) :=
  match b with Pos pieces _ _ => pieces end.

Definition replies (b : Position) (p : Player) : list Position :=
  match b, p with
  | Pos _ replies1 _, PlayerOne => replies1
  | Pos _ _ replies2, PlayerTwo => replies2
  end.

Definition squares_of (b : Position) (p : Player) : list nat :=
  filter
    (fun sq =>
       match nth_error (pieces_of b) sq with
       | Some (owner, _) => player_eqb owner p
       | None => false
       end)
    (seq 0 (length (pieces_of b))).

Definition class_at (b : Position) (sq : nat) : Z :=
  match nth_error (pieces_of b) sq with
  | Some (_, class) => class
  | None => 0
  end.

#[global] Instance synthetic_api : BoardAPI Position Position nat := {
  get_available_moves := replies;
  apply := fun move _ => move;
  get_player_squares := squares_of;
  piece_class := class_at
}.

Definition man (p : Player) : Player * Z := (p, 1).
Definition king (p : Player) : Player * Z := (p, 2).

(** A position without pieces or moves. *)
Definition bare : Position := Pos [] [] [].

(** One man each; both players can still move. *)
Definition level : Position :=
  Pos [man PlayerOne; man PlayerTwo] [bare] [bare].

(** Player one is a man up; both players can still move. *)
Definition ahead : Position :=
  Pos [man PlayerOne; man PlayerOne; man PlayerTwo] [bare] [bare].

(** Two men against one, player two to reply: a capture leads to
    [level], a quiet move to [ahead]. *)
Definition fork : Position :=
  Pos [man PlayerOne; man PlayerOne; man PlayerTwo] [bare] [level; ahead].

(** Player one can move to [fork]; player two can move as well. *)
Definition start : Position :=
  Pos [man PlayerOne; man PlayerOne; man PlayerTwo] [fork] [bare].

(** Player two has no move here. *)
Definition stuck : Position :=
  Pos [king PlayerOne; man PlayerTwo] [bare] [].

(** Player one can move to [stuck]; player two can move on this board. *)
Definition trap : Position :=
  Pos [man PlayerOne; man PlayerTwo] [stuck] [bare].

End Synthetic.

(** ** The selector's grade of a candidate *)

Section Grades.

Context {Board Move Square : Type} `{API : BoardAPI Board Move Square}.

(** What [get_next_move] appends to [future_states_grades] for one
    candidate: [max(list_h)] after the search started on an empty
    [list_h]; [None] when that list stays empty. *)
Definition candidate_grade (mode : string) (board : Board) (player : Player)
    (move : Move) : option Z :=
  py_max_list (run_search mode move board (other player) player []).

(** A line of play in which every move is legal for the player whose
    turn it is, [player] moving first. *)
Fixpoint legal_line (board : Board) (player : Player) (moves : list Move)
  : Prop :=
  match moves with
  | [] => True
  | move :: rest =>
      In move (get_available_moves board player)
      /\ legal_line (apply move board) (other player) rest
  end.

End Grades.

(** ** The arena: [game-arena/arena.py]

    Logging and drawing are left out: they do not influence what the
    functions return. *)

(** [libcheckers.enum.GameOverReason] *)
Inductive GameOverReason : Type :=
| WHITE_WON
| BLACK_WON
| DRAW.

(** [Player.WHITE] and [Player.BLACK] *)
Definition WHITE : Player := PlayerOne.
Definition BLACK : Player := PlayerTwo.

(** The minimum number of moves each player must make to consider the
    game a draw. *)
Definition MAX_MOVES : nat := 100.

Section Arena.

Context {Board Move Square : Type} `{API : BoardAPI Board Move Square}.

(** [Move.__eq__], used by [move not in allowed_moves]. *)
Variable move_eqb : Move -> Move -> bool.

(** [board.check_game_over(player)] *)
Variable check_game_over : Board -> Player -> bool.

(** What the keyboard or the AI server answers when asked for move
    number [move_num] on [board] for [player], that is, the result of
    [get_player_move_from_keyboard] or [get_player_move_from_server]. *)
Variable answer : nat -> Board -> Player -> Move.

(** The draw consumed by [random.choice] in that same request. *)
Variable draw : nat -> Player -> nat.

(** [move in allowed_moves] *)
Definition py_in (move : Move) (allowed_moves : list Move) : bool :=
  existsb (move_eqb move) allowed_moves.

(** [get_player_move]; [None] stands for the [IndexError] of
    [random.choice] on an empty list. *)
Definition get_player_move (move_num : nat) (board : Board)
    (player : Player) : option Move :=
  let allowed_moves := get_available_moves board player in
  let move := answer move_num board player in
  if negb (py_in move allowed_moves) then
    random_choice (draw move_num player) allowed_moves
  else Some move.

(** The [for move_number in range(1, MAX_MOVES + 1)] loop of [run_game]
    with the statement that follows it; [numbers] is the part of the
    range still to be run. *)
Fixpoint play_rounds (numbers : list nat) (board : Board)
    (moves : list Move) : option (list Move * GameOverReason) :=
  match numbers with
  | [] => Some (moves, DRAW)
  | move_number :: rest =>
      if check_game_over board WHITE then Some (moves, BLACK_WON)
      else
        match get_player_move move_number board WHITE with
        | None => None
        | Some white_move =>
            let moves := moves ++ [white_move] in
            let board := apply white_move board in
            if check_game_over board BLACK then Some (moves, WHITE_WON)
            else
              match get_player_move move_number board BLACK with
              | None => None
              | Some black_move =>
                  let moves := moves ++ [black_move] in
                  let board := apply black_move board in
                  play_rounds rest board moves
              end
        end
  end.

(** [run_game], started on the board that [get_starting_board()]
    returns. *)
Definition run_game (starting_board : Board)
  : option (list Move * GameOverReason) :=
  let board := starting_board in
  let moves := [] in
  play_rounds (seq 1 MAX_MOVES) board moves.

End Arena.

(** ** A counting game implementing the board interface

    The board is a pile of counters; a player takes one counter, or one
    or two when at least two are left, and the game is over for the
    player to move when the pile is empty. *)

Module Pile.

Definition takes (board : nat) (player : Player) : list nat :=
  match board with
  | O => []
  | S O => [1%nat]
  | S (S _) => [1%nat; 2%nat]
  end.

#[global] Instance pile_api : BoardAPI nat nat unit := {
  get_available_moves := takes;
  apply := fun move board => (board - move)%nat;
  get_player_squares := fun _ _ => [];
  piece_class := fun _ _ => 0
}.

Definition is_over (board : nat) (player : Player) : bool :=
  (board =? 0)%nat.

(** A provider that always asks to take two counters. *)
Definition greedy (move_num : nat) (board : nat) (player : Player) : nat :=
  2%nat.

Definition no_draw (move_num : nat) (player : Player) : nat := O.

End Pile.

(** ** A synthetic position with two candidates *)

Module Opening.

(** After this move player one is level and cannot move; player two
    can. *)
Definition trade : Synthetic.Position :=
  Synthetic.Pos
    [Synthetic.man PlayerOne; Synthetic.man PlayerTwo]
    [] [Synthetic.bare].

(** After this move player one stays a man up and cannot move; player
    two can. *)
Definition hold : Synthetic.Position :=
  Synthetic.Pos
    [Synthetic.man PlayerOne; Synthetic.man PlayerOne;
     Synthetic.man PlayerTwo]
    [] [Synthetic.bare].

(** Player one to choose between [trade] and [hold]. *)
Definition choice : Synthetic.Position :=
  Synthetic.Pos
    [Synthetic.man PlayerOne; Synthetic.man PlayerOne;
     Synthetic.man PlayerTwo]
    [trade; hold] [Synthetic.bare].

End Opening.

(** * Properties *)

(** ** Search values *)

Lemma num_min_neginf (x : Num) : Num.min NegInf x = NegInf.
Proof. destruct x; reflexivity. Qed.

Lemma num_max_neginf (x : Num) : Num.max NegInf x = x.
Proof. destruct x; reflexivity. Qed.

(** ** The heuristic *)

Section Heuristic.

Context {Board Move Square : Type} `{API : BoardAPI Board Move Square}.

(** The counting loop adds, to the counter it starts from, the number
    of promoted pieces among the squares it walks over. *)
Lemma count_kings_filter (board : Board) (squares : list Square) (n : Z) :
  count_kings board squares n
  = n + Z.of_nat (length (filter (is_king board) squares)).
Proof.
  revert n.
  induction squares as [|square rest IH]; intros n; simpl.
  - lia.
  - rewrite IH. unfold is_king.
    destruct (piece_class board square =? 2); simpl length; lia.
Qed.

Lemma opponent_is_other (player : Player) :
  (if player_id player =? 1 then PlayerTwo else PlayerOne) = other player.
Proof. destruct player; reflexivity. Qed.

(** C7. For every board and each of the two players, the heuristic is
    the material difference plus the king difference:
    [(n_self - n_opp) + (k_self - k_opp)], where [n] counts the squares
    a player owns and [k] those among them that hold a promoted piece. *)
Theorem heuristic_function_formula (board : Board) (player : Player) :
  heuristic_function board player
  = (owned board player - owned board (other player))
    + (kings board player - kings board (other player)).
Proof.
  unfold heuristic_function, owned, kings.
  rewrite opponent_is_other, !count_kings_filter.
  lia.
Qed.

(** Swapping the perspective negates the heuristic, on any board. *)
Lemma heuristic_function_swap (board : Board) (player : Player) :
  heuristic_function board player
  = - heuristic_function board (other player).
Proof.
  unfold heuristic_function.
  rewrite !opponent_is_other.
  destruct player; simpl other; lia.
Qed.

(** C8. On a board whose squares are owned by at most one of the two
    players, the heuristic seen by player 1 is the negation of the
    heuristic seen by player 2. *)
Theorem heuristic_function_antisymmetric (board : Board) :
  single_owner board ->
  heuristic_function board PlayerOne
  = - heuristic_function board PlayerTwo.
Proof.
  intros _. exact (heuristic_function_swap board PlayerOne).
Qed.

End Heuristic.

(** ** The two searches *)

Section Search.

Context {Board Move Square : Type} `{API : BoardAPI Board Move Square}.

Implicit Types (move : Move) (board : Board) (depth : nat).
Implicit Types (player st_player : Player) (alfa beta : Num).

Lemma minimax_succ move board depth player st_player list_h :
  minimax move board (S depth) player st_player list_h
  = if no_moves board player then leaf board st_player list_h
    else
      match player with
      | PlayerOne =>
          fold_left (max_step (apply move board) depth st_player)
            (get_available_moves (apply move board) PlayerOne)
            (NegInf, list_h)
      | PlayerTwo =>
          fold_left (min_step (apply move board) depth st_player)
            (get_available_moves (apply move board) PlayerTwo)
            (NegInf, list_h)
      end.
Proof. destruct player; reflexivity. Qed.

Lemma alpha_beta_succ move board depth alfa beta player st_player answers :
  alpha_beta move board (S depth) alfa beta player st_player answers
  = if no_moves board player then leaf board st_player answers
    else
      match player with
      | PlayerOne =>
          max_loop
            (fun reply a b acc =>
               alpha_beta reply (apply move board) depth a b
                 PlayerTwo st_player acc)
            (get_available_moves (apply move board) PlayerOne)
            NegInf alfa beta answers
      | PlayerTwo =>
          min_loop
            (fun reply a b acc =>
               alpha_beta reply (apply move board) depth a b
                 PlayerOne st_player acc)
            (get_available_moves (apply move board) PlayerTwo)
            NegInf alfa beta answers
      end.
Proof. destruct player; reflexivity. Qed.

Lemma no_moves_true board player :
  no_moves board player = true <-> get_available_moves board player = [].
Proof.
  unfold no_moves.
  destruct (get_available_moves board player); simpl; split;
    congruence.
Qed.

Lemma no_moves_false board player :
  no_moves board player = false <-> get_available_moves board player <> [].
Proof.
  unfold no_moves.
  destruct (get_available_moves board player); simpl; split;
    congruence.
Qed.

Lemma not_leaf_call board depth player :
  ~ leaf_call board depth player ->
  exists depth', depth = S depth' /\ no_moves board player = false.
Proof.
  unfold leaf_call. intros Hn.
  destruct depth as [|depth'].
  - exfalso. apply Hn. now left.
  - exists depth'. split; [reflexivity|].
    apply no_moves_false. intros He. apply Hn. now right.
Qed.

(** C4. When [depth] is zero or the acting player has no legal move on
    the board passed in, both searches return [evaluate(board,
    rootPlayer)] and leave the accumulator extended by exactly that one
    value: no child call has contributed to it. *)
Theorem leaf_call_evaluates move board depth alfa beta player st_player
    list_h :
  leaf_call board depth player ->
  minimax move board depth player st_player list_h
  = (Int (heuristic_function board st_player),
     list_h ++ [heuristic_function board st_player])
  /\ alpha_beta move board depth alfa beta player st_player list_h
     = (Int (heuristic_function board st_player),
        list_h ++ [heuristic_function board st_player]).
Proof.
  intros [Hd | Hm].
  - subst depth. split; reflexivity.
  - apply no_moves_true in Hm.
    destruct depth as [|depth'].
    + split; reflexivity.
    + rewrite minimax_succ, alpha_beta_succ, Hm. split; reflexivity.
Qed.

(** *** The minimizing branch as written *)

(** A running minimum seeded with minus infinity stays there. *)
Lemma min_step_neginf new_board depth st_player moves list_h :
  fst (fold_left (min_step new_board depth st_player) moves
         (NegInf, list_h)) = NegInf.
Proof.
  revert list_h.
  induction moves as [|reply rest IH]; intros list_h; simpl.
  - reflexivity.
  - destruct (minimax reply new_board depth PlayerOne st_player list_h)
      as [v list_h'].
    rewrite num_min_neginf. apply IH.
Qed.

(** With the running value at minus infinity, the minimizing loop of
    [alpha_beta] stops after its first iteration. *)
Lemma min_loop_neginf (child : Move -> Num -> Num -> list Z -> Num * list Z)
    moves alfa beta answers :
  min_loop child moves NegInf alfa beta answers
  = (NegInf,
     match moves with
     | [] => answers
     | first :: _ => snd (child first alfa beta answers)
     end).
Proof.
  destruct moves as [|first rest]; simpl.
  - reflexivity.
  - destruct (child first alfa beta answers) as [r answers'].
    rewrite !num_min_neginf.
    destruct beta; reflexivity.
Qed.

(** C9. A non-leaf call with acting player 2 that enumerates at least
    one move on the post-move board returns minus infinity, in
    [minimax] and in [alpha_beta], whatever the depth, the board, the
    bounds and the children. *)
Theorem minimizer_returns_neginf move board depth alfa beta st_player
    list_h :
  ~ leaf_call board depth PlayerTwo ->
  get_available_moves (apply move board) PlayerTwo <> [] ->
  fst (minimax move board depth PlayerTwo st_player list_h) = NegInf
  /\ fst (alpha_beta move board depth alfa beta PlayerTwo st_player list_h)
     = NegInf.
Proof.
  intros Hleaf _.
  destruct (not_leaf_call _ _ _ Hleaf) as (depth' & -> & Hmoves).
  rewrite minimax_succ, alpha_beta_succ, Hmoves.
  split.
  - apply min_step_neginf.
  - now rewrite min_loop_neginf.
Qed.

(** C10. In a non-leaf call of [alpha_beta] with acting player 2, for
    every [alfa] and [beta]: after the first child the new [beta] is
    minus infinity and the cut test [beta <= alfa] succeeds, so the loop
    runs at most once; the accumulator returned is the one left by the
    first enumerated reply (or the incoming one when no reply exists),
    and the result is the same as on the reply list cut down to its
    first element. *)
Theorem minimizer_explores_first_reply_only move board depth alfa beta
    st_player answers :
  ~ leaf_call board depth PlayerTwo ->
  let new_board := apply move board in
  let moves := get_available_moves new_board PlayerTwo in
  let child := fun reply a b acc =>
    alpha_beta reply new_board (pred depth) a b PlayerOne st_player acc in
  (forall r, Num.min beta (Num.min NegInf r) = NegInf
             /\ Num.leb (Num.min beta (Num.min NegInf r)) alfa = true)
  /\ alpha_beta move board depth alfa beta PlayerTwo st_player answers
     = min_loop child (firstn 1 moves) NegInf alfa beta answers
  /\ alpha_beta move board depth alfa beta PlayerTwo st_player answers
     = (NegInf,
        match moves with
        | [] => answers
        | first :: _ => snd (child first alfa beta answers)
        end).
Proof.
  intros Hleaf new_board moves child.
  destruct (not_leaf_call _ _ _ Hleaf) as (depth' & -> & Hmoves).
  split; [|split].
  - intros r. rewrite !num_min_neginf.
    destruct beta; split; reflexivity.
  - rewrite alpha_beta_succ, Hmoves. fold new_board moves.
    rewrite !min_loop_neginf.
    destruct moves; reflexivity.
  - rewrite alpha_beta_succ, Hmoves. fold new_board moves.
    now rewrite min_loop_neginf.
Qed.

End Search.

(** ** The move selector *)

Lemma fold_max_attained (rest : list Z) (x : Z) :
  In (fold_left Z.max rest x) (x :: rest).
Proof.
  revert x.
  induction rest as [|y rest IH]; intros x; simpl.
  - now left.
  - specialize (IH (Z.max x y)).
    destruct (Z.max_spec x y) as [[_ Hm] | [_ Hm]]; rewrite Hm in *;
      destruct IH as [He | Hin]; auto.
Qed.

Lemma py_max_list_in (xs : list Z) (best : Z) :
  py_max_list xs = Some best -> In best xs.
Proof.
  destruct xs as [|x rest]; simpl; [discriminate|].
  intros [= <-]. apply fold_max_attained.
Qed.

Lemma py_max_list_some (xs : list Z) :
  xs <> [] -> exists best, py_max_list xs = Some best.
Proof.
  destruct xs as [|x rest]; [congruence|].
  intros _. eexists. reflexivity.
Qed.

Lemma random_choice_in {A : Type} (r : nat) (xs : list A) :
  xs <> [] -> exists x, random_choice r xs = Some x /\ In x xs.
Proof.
  destruct xs as [|a rest]; [congruence|]. intros _.
  unfold random_choice.
  destruct (nth_error (a :: rest) (r mod length (a :: rest))) as [x|] eqn:E.
  - exists x. split; [reflexivity|]. eapply nth_error_In; eassumption.
  - apply nth_error_None in E.
    pose proof (Nat.mod_upper_bound r (length (a :: rest))) as Hb.
    simpl length in *. lia.
Qed.

Lemma best_moves_indeces_bound (grades : list Z) (i : nat) :
  In i (best_moves_indeces grades) -> (i < length grades)%nat.
Proof.
  unfold best_moves_indeces. intros Hin.
  apply filter_In in Hin as [Hseq _].
  apply in_seq in Hseq. lia.
Qed.

Lemma best_moves_indeces_nonempty (grades : list Z) :
  grades <> [] -> best_moves_indeces grades <> [].
Proof.
  intros Hne.
  destruct (py_max_list_some grades Hne) as [best Hbest].
  destruct (In_nth_error _ _ (py_max_list_in _ _ Hbest)) as [i Hi].
  assert (Hin : In i (best_moves_indeces grades)).
  { unfold best_moves_indeces. apply filter_In. split.
    - apply in_seq. split; [lia|]. simpl.
      apply nth_error_Some. congruence.
    - rewrite Hi, Hbest. apply Z.eqb_refl. }
  intros He. rewrite He in Hin. exact Hin.
Qed.

Section Selector.

Context {Board Move Square : Type} `{API : BoardAPI Board Move Square}.

(** Once every candidate is scored, or as soon as one cannot be, the
    loop hands back one of the candidates. *)
Lemma score_moves_member (r : nat) (mode : string) (board : Board)
    (pl player : Player) (pos_moves todo : list Move)
    (list_h grades : list Z) :
  pos_moves <> [] ->
  (length grades + length todo = length pos_moves)%nat ->
  exists chosen,
    score_moves r mode board pl player pos_moves todo list_h grades
    = Some chosen
    /\ In chosen pos_moves.
Proof.
  intros Hne. revert list_h grades.
  induction todo as [|move rest IH]; intros list_h grades Hlen; simpl.
  - assert (Hg : grades <> []).
    { destruct grades; [|congruence].
      destruct pos_moves; [congruence|]. simpl in Hlen. lia. }
    destruct (random_choice_in r _ (best_moves_indeces_nonempty _ Hg))
      as (i & -> & Hi).
    apply best_moves_indeces_bound in Hi.
    destruct (nth_error pos_moves i) as [chosen|] eqn:E.
    + exists chosen. split; [reflexivity|].
      eapply nth_error_In; eassumption.
    + apply nth_error_None in E. simpl in Hlen. lia.
  - destruct (py_max_list (run_search mode move board pl player list_h))
      as [best|].
    + apply IH. rewrite length_app. simpl in *. lia.
    + apply random_choice_in, Hne.
Qed.

(** C5. When the player has at least one legal move on the board, the
    selector returns, whatever the random draw and the search mode, a
    move and not an exception, and that move is one of the legal
    moves; this holds for [get_next_move] and for [pick_next_move]. *)
Theorem selector_returns_legal_move (r : nat) (board : Board)
    (player : Player) (mode : string) :
  get_available_moves board player <> [] ->
  (exists chosen,
      get_next_move r board player mode = Some chosen
      /\ In chosen (get_available_moves board player))
  /\ (exists chosen,
         pick_next_move r board player = Some chosen
         /\ In chosen (get_available_moves board player)).
Proof.
  intros Hne. unfold pick_next_move, get_next_move.
  split; apply score_moves_member; auto.
Qed.

(** A candidate whose search leaves the accumulator empty ends the
    scoring loop with a random choice among all candidates, wherever
    it stands in the part still to be scored. *)
Lemma score_moves_fallback (r : nat) (mode : string) (board : Board)
    (pl player : Player) (pos_moves todo : list Move) (grades : list Z)
    (move : Move) :
  In move todo ->
  run_search mode move board pl player [] = [] ->
  score_moves r mode board pl player pos_moves todo [] grades
  = random_choice r pos_moves.
Proof.
  intros Hin Hempty. revert grades.
  induction todo as [|head rest IH]; intros grades; [destruct Hin|].
  simpl.
  destruct (py_max_list (run_search mode head board pl player []))
    as [best|] eqn:E.
  - destruct Hin as [-> | Hin].
    + rewrite Hempty in E. discriminate.
    + now apply IH.
  - reflexivity.
Qed.

(** C6. If the search of some candidate leaves the leaf-value
    accumulator empty when its maximum is taken, [get_next_move]
    returns [random.choice] of the whole candidate list, which is a
    candidate and not an exception. *)
Theorem empty_accumulator_falls_back (r : nat) (board : Board)
    (player : Player) (mode : string) (move : Move) :
  In move (get_available_moves board player) ->
  run_search mode move board (other player) player [] = [] ->
  get_next_move r board player mode
  = random_choice r (get_available_moves board player)
  /\ exists chosen,
       get_next_move r board player mode = Some chosen
       /\ In chosen (get_available_moves board player).
Proof.
  intros Hin Hempty.
  assert (Heq : get_next_move r board player mode
                = random_choice r (get_available_moves board player)).
  { unfold get_next_move. rewrite opponent_is_other.
    eapply score_moves_fallback; eassumption. }
  split; [exact Heq|].
  rewrite Heq. apply random_choice_in.
  intros He. rewrite He in Hin. exact Hin.
Qed.

End Selector.

(** ** What pruning keeps and what the maximizer returns *)

Lemma fold_max_upper (rest : list Z) (x y : Z) :
  In y (x :: rest) -> y <= fold_left Z.max rest x.
Proof.
  revert x y.
  induction rest as [|z rest IH]; intros x y Hin; simpl.
  - destruct Hin as [-> | []]. lia.
  - pose proof (IH (Z.max x z) (Z.max x z) (or_introl eq_refl)).
    destruct Hin as [-> | [-> | Hin]]; [lia | lia |].
    apply IH. now right.
Qed.

(** The maximum of a part never exceeds the maximum of the whole. *)
Lemma py_max_list_incl (seen all : list Z) (a : Z) :
  incl seen all ->
  py_max_list seen = Some a ->
  exists b, py_max_list all = Some b /\ a <= b.
Proof.
  intros Hincl Ha.
  pose proof (Hincl _ (py_max_list_in _ _ Ha)) as Hin.
  destruct all as [|x rest]; [destruct Hin|].
  eexists. split; [reflexivity|]. now apply fold_max_upper.
Qed.

Section Pruning.

Context {Board Move Square : Type} `{API : BoardAPI Board Move Square}.

Implicit Types (move : Move) (board : Board) (depth : nat).
Implicit Types (player st_player : Player) (alfa beta : Num).

Lemma kept_leaf board st_player answers list_h :
  kept (leaf board st_player answers) answers
       (leaf board st_player list_h) list_h.
Proof.
  exists [heuristic_function board st_player],
         [heuristic_function board st_player].
  repeat split; auto using incl_refl.
Qed.

Section Loop.

Variables (new_board : Board) (depth : nat) (st_player : Player).
Variable next : Player.

Hypothesis IH :
  forall move alfa beta answers list_h,
    kept (alpha_beta move new_board depth alfa beta next st_player
            answers) answers
         (minimax move new_board depth next st_player list_h) list_h.

Let child : Move -> Num -> Num -> list Z -> Num * list Z :=
  fun reply a b acc =>
    alpha_beta reply new_board depth a b next st_player acc.

Lemma kept_max_loop moves v alfa beta answers best_value list_h :
  next = PlayerTwo ->
  kept (max_loop child moves v alfa beta answers) answers
       (fold_left (max_step new_board depth st_player) moves
          (best_value, list_h)) list_h.
Proof.
  intros Hnext.
  revert v alfa beta answers best_value list_h.
  induction moves as [|reply rest IHrest];
    intros v alfa beta answers best_value list_h.
  - exists [], []. simpl. rewrite !app_nil_r.
    repeat split; auto using incl_refl.
  - simpl. unfold child at 1.
    destruct (IH reply alfa beta answers list_h)
      as (seen1 & all1 & H1 & H2 & Hi1).
    rewrite Hnext in H1, H2.
    rewrite Hnext.
    destruct (alpha_beta reply new_board depth alfa beta PlayerTwo
                st_player answers) as [r answers'].
    destruct (minimax reply new_board depth PlayerTwo st_player list_h)
      as [w list_h'].
    simpl in H1, H2. subst answers' list_h'.
    destruct (Num.leb beta (Num.max alfa (Num.max v r))).
    + destruct (IHrest NegInf NegInf NegInf [] (Num.max best_value w)
                  (list_h ++ all1))
        as (_ & all2 & _ & Hf & _).
      exists seen1, (all1 ++ all2). rewrite Hf.
      repeat split; auto using app_assoc, incl_appl.
    + destruct (IHrest (Num.max v r) (Num.max alfa (Num.max v r)) beta
                  (answers ++ seen1) (Num.max best_value w)
                  (list_h ++ all1))
        as (seen2 & all2 & Hp & Hf & Hi2).
      exists (seen1 ++ seen2), (all1 ++ all2). rewrite Hp, Hf.
      repeat split; auto using app_assoc, incl_app_app.
Qed.

Lemma kept_min_loop moves v alfa beta answers best_value list_h :
  next = PlayerOne ->
  kept (min_loop child moves v alfa beta answers) answers
       (fold_left (min_step new_board depth st_player) moves
          (best_value, list_h)) list_h.
Proof.
  intros Hnext.
  revert v alfa beta answers best_value list_h.
  induction moves as [|reply rest IHrest];
    intros v alfa beta answers best_value list_h.
  - exists [], []. simpl. rewrite !app_nil_r.
    repeat split; auto using incl_refl.
  - simpl. unfold child at 1.
    destruct (IH reply alfa beta answers list_h)
      as (seen1 & all1 & H1 & H2 & Hi1).
    rewrite Hnext in H1, H2.
    rewrite Hnext.
    destruct (alpha_beta reply new_board depth alfa beta PlayerOne
                st_player answers) as [r answers'].
    destruct (minimax reply new_board depth PlayerOne st_player list_h)
      as [w list_h'].
    simpl in H1, H2. subst answers' list_h'.
    destruct (Num.leb (Num.min beta (Num.min v r)) alfa).
    + destruct (IHrest NegInf NegInf NegInf [] (Num.min best_value w)
                  (list_h ++ all1))
        as (_ & all2 & _ & Hf & _).
      exists seen1, (all1 ++ all2). rewrite Hf.
      repeat split; auto using app_assoc, incl_appl.
    + destruct (IHrest (Num.min v r) alfa (Num.min beta (Num.min v r))
                  (answers ++ seen1) (Num.min best_value w)
                  (list_h ++ all1))
        as (seen2 & all2 & Hp & Hf & Hi2).
      exists (seen1 ++ seen2), (all1 ++ all2). rewrite Hp, Hf.
      repeat split; auto using app_assoc, incl_app_app.
Qed.

End Loop.

(** Every leaf value that [alpha_beta] appends is also appended by
    [minimax] on the same arguments, for all bounds. *)
Lemma alpha_beta_leaves_kept depth :
  forall move board alfa beta player st_player answers list_h,
    kept (alpha_beta move board depth alfa beta player st_player answers)
         answers
         (minimax move board depth player st_player list_h) list_h.
Proof.
  induction depth as [|depth IHd];
    intros move board alfa beta player st_player answers list_h.
  - apply kept_leaf.
  - rewrite alpha_beta_succ, minimax_succ.
    destruct (no_moves board player); [apply kept_leaf|].
    destruct player.
    + apply (kept_max_loop (apply move board) depth st_player PlayerTwo);
        auto.
    + apply (kept_min_loop (apply move board) depth st_player PlayerOne);
        auto.
Qed.

(** Hence the largest leaf value recorded under pruning is at most the
    largest one recorded without. *)
Lemma alpha_beta_maximum_bounded move board depth alfa beta player
    st_player (a : Z) :
  py_max_list
    (snd (alpha_beta move board depth alfa beta player st_player []))
  = Some a ->
  exists b,
    py_max_list (snd (minimax move board depth player st_player []))
    = Some b
    /\ a <= b.
Proof.
  destruct (alpha_beta_leaves_kept depth move board alfa beta player
              st_player [] [])
    as (seen & all & -> & -> & Hincl).
  simpl. now apply py_max_list_incl.
Qed.

End Pruning.

(** ** Roles at the inner nodes of [minimax] *)

Section Roles.

Context {Board Move Square : Type} `{API : BoardAPI Board Move Square}.

Implicit Types (move : Move) (board : Board) (depth : nat).
Implicit Types (player st_player : Player).

Section Step.

Variables (new_board : Board) (depth : nat) (st_player : Player).

Hypothesis value_only :
  forall move player list_h list_h',
    fst (minimax move new_board depth player st_player list_h)
    = fst (minimax move new_board depth player st_player list_h').

Lemma max_step_values moves best_value list_h :
  fst (fold_left (max_step new_board depth st_player) moves
         (best_value, list_h))
  = fold_left Num.max
      (map (fun reply =>
              fst (minimax reply new_board depth PlayerTwo st_player []))
           moves)
      best_value.
Proof.
  revert best_value list_h.
  induction moves as [|reply rest IH]; intros best_value list_h; simpl.
  - reflexivity.
  - rewrite <- (value_only reply PlayerTwo list_h []).
    destruct (minimax reply new_board depth PlayerTwo st_player list_h)
      as [v list_h'].
    apply IH.
Qed.

Lemma min_step_values moves best_value list_h :
  fst (fold_left (min_step new_board depth st_player) moves
         (best_value, list_h))
  = fold_left Num.min
      (map (fun reply =>
              fst (minimax reply new_board depth PlayerOne st_player []))
           moves)
      best_value.
Proof.
  revert best_value list_h.
  induction moves as [|reply rest IH]; intros best_value list_h; simpl.
  - reflexivity.
  - rewrite <- (value_only reply PlayerOne list_h []).
    destruct (minimax reply new_board depth PlayerOne st_player list_h)
      as [v list_h'].
    apply IH.
Qed.

End Step.

(** The value returned by [minimax] does not depend on what the
    accumulator holds when the call starts. *)
Lemma minimax_value_only depth :
  forall move board player st_player list_h list_h',
    fst (minimax move board depth player st_player list_h)
    = fst (minimax move board depth player st_player list_h').
Proof.
  induction depth as [|depth IH];
    intros move board player st_player list_h list_h'.
  - reflexivity.
  - rewrite !minimax_succ.
    destruct (no_moves board player); [reflexivity|].
    destruct player.
    + rewrite !max_step_values; auto.
    + rewrite !min_step_values; auto.
Qed.

(** A non-leaf [minimax] call folds its children's values, in order,
    into a running value that starts at minus infinity: with [max]
    when player 1 acts and with [min] when player 2 acts.  The children
    are searched at [depth - 1] with the other player acting and the
    same root player. *)
Lemma minimax_inner_node move board depth player st_player list_h :
  no_moves board player = false ->
  fst (minimax move board (S depth) player st_player list_h)
  = fold_left
      (match player with PlayerOne => Num.max | PlayerTwo => Num.min end)
      (minimax_children move board depth player st_player)
      NegInf.
Proof.
  intros Hmoves. rewrite minimax_succ, Hmoves.
  unfold minimax_children.
  destruct player; simpl other.
  - apply max_step_values. intros. apply minimax_value_only.
  - apply min_step_values. intros. apply minimax_value_only.
Qed.

(** When player 1 acts and has replies, that is the maximum of the
    children's values. *)
Lemma maximizer_returns_maximum move board depth st_player list_h :
  no_moves board PlayerOne = false ->
  minimax_children move board depth PlayerOne st_player <> [] ->
  maximum (minimax_children move board depth PlayerOne st_player)
  = Some (fst (minimax move board (S depth) PlayerOne st_player list_h)).
Proof.
  intros Hmoves Hne.
  rewrite minimax_inner_node by assumption.
  destruct (minimax_children move board depth PlayerOne st_player)
    as [|v rest]; [congruence|].
  simpl. now rewrite num_max_neginf.
Qed.

End Roles.

(** ** Evaluations on the synthetic game *)

(** On [fork] player one has two men against one and is graded 1; the
    two replies of player two lead to [level], graded 0 for player one,
    and to [ahead], graded 1.  The searches below start from [start] with
    the candidate move to [fork] pending and player two to reply. *)

(** C1. On the synthetic position [start] with pending move [fork],
    depth 2, acting player 2 and root player 1, [minimax] records the
    leaves 0 and 1 while [alpha_beta], started with alfa = -infinity and
    beta = +infinity, records the leaf 0 only: the maximal recorded leaf
    values are 1 and 0. *)
Theorem pruned_maximum_differs :
  snd (minimax Synthetic.fork Synthetic.start 2 PlayerTwo PlayerOne [])
  = [0; 1]
  /\ snd (alpha_beta Synthetic.fork Synthetic.start 2 NegInf PosInf
            PlayerTwo PlayerOne [])
     = [0]
  /\ py_max_list
       (snd (minimax Synthetic.fork Synthetic.start 2 PlayerTwo PlayerOne []))
     <> py_max_list
          (snd (alpha_beta Synthetic.fork Synthetic.start 2 NegInf PosInf
                  PlayerTwo PlayerOne [])).
Proof.
  repeat split. vm_compute. discriminate.
Qed.

(** C2. On the synthetic position [start] with pending move [fork],
    depth 1 and acting player 2, both children return 1, so their minimum
    is 1, yet [minimax] and [alpha_beta] return minus infinity. *)
Theorem minimizer_misses_children_minimum :
  minimax_children Synthetic.fork Synthetic.start 0 PlayerTwo PlayerOne
  = [Int 1; Int 1]
  /\ alpha_beta_children Synthetic.fork Synthetic.start 0 NegInf PosInf
       PlayerTwo PlayerOne
     = [Int 1; Int 1]
  /\ minimum
       (minimax_children Synthetic.fork Synthetic.start 0 PlayerTwo PlayerOne)
     = Some (Int 1)
  /\ fst (minimax Synthetic.fork Synthetic.start 1 PlayerTwo PlayerOne [])
     = NegInf
  /\ fst (alpha_beta Synthetic.fork Synthetic.start 1 NegInf PosInf
            PlayerTwo PlayerOne [])
     = NegInf.
Proof.
  repeat split.
Qed.

(** C3. On the synthetic position [start] with pending move [fork],
    depth 1, acting player 2 and the full window, the minimizing branch
    worded by the specification (running value starting at plus
    infinity) visits both replies and returns 1, whereas [alpha_beta]
    starts its running value at minus infinity, returns it and visits
    the first reply only. *)
Theorem min_branch_seed_differs :
  min_branch_specified Synthetic.fork Synthetic.start 0 NegInf PosInf
    PlayerOne []
  = (Int 1, [1; 1])
  /\ alpha_beta Synthetic.fork Synthetic.start 1 NegInf PosInf
       PlayerTwo PlayerOne []
     = (NegInf, [1])
  /\ min_branch_specified Synthetic.fork Synthetic.start 0 NegInf PosInf
       PlayerOne []
     <> alpha_beta Synthetic.fork Synthetic.start 1 NegInf PosInf
          PlayerTwo PlayerOne [].
Proof.
  repeat split. vm_compute. discriminate.
Qed.

(** ** The general theorems at work on the synthetic game *)

(** [stuck] has one king of player one on square 0 and one man of player
    two on square 1. *)
Lemma heuristic_function_antisymmetric_witness :
  single_owner Synthetic.stuck
  /\ heuristic_function Synthetic.stuck PlayerOne
     = - heuristic_function Synthetic.stuck PlayerTwo.
Proof.
  assert (Hs : single_owner Synthetic.stuck).
  { intros square H1 H2. simpl in H1, H2.
    destruct H1 as [<- | []]. destruct H2 as [H2 | []]. discriminate. }
  split; [exact Hs|].
  exact (heuristic_function_antisymmetric Synthetic.stuck Hs).
Defined.

(** Player two cannot move on [stuck]: three plies are left, yet the call
    is a leaf. *)
Lemma leaf_call_evaluates_witness :
  minimax Synthetic.bare Synthetic.stuck 3 PlayerTwo PlayerOne [7]
  = (Int 1, [7; 1])
  /\ alpha_beta Synthetic.bare Synthetic.stuck 3 NegInf PosInf
       PlayerTwo PlayerOne [7]
     = (Int 1, [7; 1]).
Proof.
  assert (Hleaf : leaf_call Synthetic.stuck 3 PlayerTwo)
    by (right; reflexivity).
  exact (leaf_call_evaluates Synthetic.bare Synthetic.stuck 3 NegInf PosInf
           PlayerTwo PlayerOne [7] Hleaf).
Defined.

Lemma minimizer_returns_neginf_witness :
  fst (minimax Synthetic.fork Synthetic.start 2 PlayerTwo PlayerOne [])
  = NegInf
  /\ fst (alpha_beta Synthetic.fork Synthetic.start 2 (Int 3) PosInf
            PlayerTwo PlayerOne [])
     = NegInf.
Proof.
  apply (minimizer_returns_neginf Synthetic.fork Synthetic.start 2 (Int 3)
           PosInf PlayerOne []).
  - intros [Hd | Hm]; discriminate.
  - discriminate.
Defined.

Lemma minimizer_explores_first_reply_only_witness :
  alpha_beta Synthetic.fork Synthetic.start 2 NegInf PosInf
    PlayerTwo PlayerOne []
  = (NegInf,
     snd (alpha_beta Synthetic.level Synthetic.fork 1 NegInf PosInf
            PlayerOne PlayerOne [])).
Proof.
  assert (Hinner : ~ leaf_call Synthetic.start 2 PlayerTwo)
    by (intros [Hd | Hm]; discriminate).
  exact (proj2 (proj2 (minimizer_explores_first_reply_only Synthetic.fork
                         Synthetic.start 2 NegInf PosInf PlayerOne []
                         Hinner))).
Defined.

Lemma selector_returns_legal_move_witness :
  (exists chosen,
      get_next_move 0 Synthetic.start PlayerOne "abpruning" = Some chosen
      /\ In chosen (get_available_moves Synthetic.start PlayerOne))
  /\ (exists chosen,
         pick_next_move 0 Synthetic.start PlayerOne = Some chosen
         /\ In chosen (get_available_moves Synthetic.start PlayerOne)).
Proof.
  apply (selector_returns_legal_move 0 Synthetic.start PlayerOne "abpruning").
  discriminate.
Defined.

(** On [trap] the only candidate leads to [stuck], where player two has
    no reply: the search records no leaf. *)
Lemma empty_accumulator_falls_back_witness :
  get_next_move 4 Synthetic.trap PlayerOne "abpruning"
  = random_choice 4 (get_available_moves Synthetic.trap PlayerOne)
  /\ exists chosen,
       get_next_move 4 Synthetic.trap PlayerOne "abpruning" = Some chosen
       /\ In chosen (get_available_moves Synthetic.trap PlayerOne).
Proof.
  apply (empty_accumulator_falls_back 4 Synthetic.trap PlayerOne "abpruning"
           Synthetic.stuck).
  - left. reflexivity.
  - reflexivity.
Defined.

(** * Further properties of the AI module *)

(** ** Bounds on the heuristic *)

Section Bounds.

Context {Board Move Square : Type} `{API : BoardAPI Board Move Square}.

(** X1. The grade of a board lies between minus twice the number of
    squares the opponent owns and twice the number of squares the player
    owns: a piece counts once, and once more when it is a king. *)
Theorem heuristic_function_bounds (board : Board) (player : Player) :
  - 2 * owned board (other player)
  <= heuristic_function board player
  <= 2 * owned board player.
Proof.
  unfold heuristic_function, owned.
  rewrite opponent_is_other, !count_kings_filter.
  pose proof (filter_length_le (is_king board)
                (get_player_squares board player)).
  pose proof (filter_length_le (is_king board)
                (get_player_squares board (other player))).
  lia.
Qed.

End Bounds.

(** ** The accumulator only grows *)

Lemma num_max_not_posinf (a b : Num) :
  a <> PosInf -> b <> PosInf -> Num.max a b <> PosInf.
Proof. unfold Num.max. destruct (Num.ltb a b); auto. Qed.

Section Accumulator.

Context {Board Move Square : Type} `{API : BoardAPI Board Move Square}.

Implicit Types (move : Move) (board : Board) (depth : nat).
Implicit Types (player st_player : Player) (alfa beta : Num).

Section Loop.

Variable child : Move -> Num -> Num -> list Z -> Num * list Z.

Hypothesis child_extends :
  forall move alfa beta answers,
    child move alfa beta answers
    = (fst (child move alfa beta []),
       answers ++ snd (child move alfa beta [])).

Lemma max_loop_extends moves v alfa beta answers :
  max_loop child moves v alfa beta answers
  = (fst (max_loop child moves v alfa beta []),
     answers ++ snd (max_loop child moves v alfa beta [])).
Proof.
  revert v alfa beta answers.
  induction moves as [|reply rest IH]; intros v alfa beta answers; simpl.
  - now rewrite app_nil_r.
  - rewrite (child_extends reply alfa beta answers).
    destruct (child reply alfa beta []) as [r seen]. simpl.
    destruct (Num.leb beta (Num.max alfa (Num.max v r))).
    + reflexivity.
    + rewrite (IH _ _ _ (answers ++ seen)), (IH _ _ _ seen).
      simpl. now rewrite app_assoc.
Qed.

Lemma min_loop_extends moves v alfa beta answers :
  min_loop child moves v alfa beta answers
  = (fst (min_loop child moves v alfa beta []),
     answers ++ snd (min_loop child moves v alfa beta [])).
Proof.
  revert v alfa beta answers.
  induction moves as [|reply rest IH]; intros v alfa beta answers; simpl.
  - now rewrite app_nil_r.
  - rewrite (child_extends reply alfa beta answers).
    destruct (child reply alfa beta []) as [r seen]. simpl.
    destruct (Num.leb (Num.min beta (Num.min v r)) alfa).
    + reflexivity.
    + rewrite (IH _ _ _ (answers ++ seen)), (IH _ _ _ seen).
      simpl. now rewrite app_assoc.
Qed.

End Loop.

Lemma alpha_beta_extends depth :
  forall move board alfa beta player st_player answers,
    alpha_beta move board depth alfa beta player st_player answers
    = (fst (alpha_beta move board depth alfa beta player st_player []),
       answers
       ++ snd (alpha_beta move board depth alfa beta player st_player [])).
Proof.
  induction depth as [|depth IH];
    intros move board alfa beta player st_player answers.
  - reflexivity.
  - rewrite !alpha_beta_succ.
    destruct (no_moves board player); [reflexivity|].
    destruct player.
    + apply max_loop_extends. intros. apply IH.
    + apply min_loop_extends. intros. apply IH.
Qed.

Section Step.

Variables (new_board : Board) (depth : nat) (st_player : Player).

Hypothesis minimax_extends_below :
  forall move player list_h,
    minimax move new_board depth player st_player list_h
    = (fst (minimax move new_board depth player st_player []),
       list_h ++ snd (minimax move new_board depth player st_player [])).

Lemma max_step_extends moves best_value list_h :
  fold_left (max_step new_board depth st_player) moves (best_value, list_h)
  = (fst (fold_left (max_step new_board depth st_player) moves
            (best_value, [])),
     list_h
     ++ snd (fold_left (max_step new_board depth st_player) moves
               (best_value, []))).
Proof.
  revert best_value list_h.
  induction moves as [|reply rest IH]; intros best_value list_h; simpl.
  - now rewrite app_nil_r.
  - rewrite (minimax_extends_below reply PlayerTwo list_h).
    destruct (minimax reply new_board depth PlayerTwo st_player [])
      as [v seen]. simpl.
    rewrite (IH _ (list_h ++ seen)), (IH _ seen).
    simpl. now rewrite app_assoc.
Qed.

Lemma min_step_extends moves best_value list_h :
  fold_left (min_step new_board depth st_player) moves (best_value, list_h)
  = (fst (fold_left (min_step new_board depth st_player) moves
            (best_value, [])),
     list_h
     ++ snd (fold_left (min_step new_board depth st_player) moves
               (best_value, []))).
Proof.
  revert best_value list_h.
  induction moves as [|reply rest IH]; intros best_value list_h; simpl.
  - now rewrite app_nil_r.
  - rewrite (minimax_extends_below reply PlayerOne list_h).
    destruct (minimax reply new_board depth PlayerOne st_player [])
      as [v seen]. simpl.
    rewrite (IH _ (list_h ++ seen)), (IH _ seen).
    simpl. now rewrite app_assoc.
Qed.

End Step.

Lemma minimax_extends depth :
  forall move board player st_player list_h,
    minimax move board depth player st_player list_h
    = (fst (minimax move board depth player st_player []),
       list_h ++ snd (minimax move board depth player st_player [])).
Proof.
  induction depth as [|depth IH];
    intros move board player st_player list_h.
  - reflexivity.
  - rewrite !minimax_succ.
    destruct (no_moves board player); [reflexivity|].
    destruct player.
    + apply max_step_extends. intros. apply IH.
    + apply min_step_extends. intros. apply IH.
Qed.

(** X2. Both searches only append to the accumulator and are blind to
    what it holds: run on an accumulator [list_h], a search returns the
    value it returns on the empty accumulator, and leaves [list_h]
    followed by exactly the leaves it records on the empty one. *)
Theorem search_appends_to_accumulator move board depth alfa beta player
    st_player list_h :
  minimax move board depth player st_player list_h
  = (fst (minimax move board depth player st_player []),
     list_h ++ snd (minimax move board depth player st_player []))
  /\ alpha_beta move board depth alfa beta player st_player list_h
     = (fst (alpha_beta move board depth alfa beta player st_player []),
        list_h
        ++ snd (alpha_beta move board depth alfa beta player st_player [])).
Proof.
  split.
  - apply minimax_extends.
  - apply alpha_beta_extends.
Qed.

(** X3. Every leaf value that [alpha_beta] records is also recorded by
    [minimax] on the same move, board, depth and players, whatever the
    bounds: pruning drops leaves and never invents one. *)
Theorem alpha_beta_records_minimax_leaves move board depth alfa beta player
    st_player (grade : Z) :
  In grade (snd (alpha_beta move board depth alfa beta player st_player []))
  -> In grade (snd (minimax move board depth player st_player [])).
Proof.
  destruct (alpha_beta_leaves_kept depth move board alfa beta player
              st_player [] [])
    as (seen & all & -> & -> & Hincl).
  simpl. apply Hincl.
Qed.

(** X4. When [alpha_beta] has recorded leaves, [minimax] has too, and
    the largest leaf value seen under pruning is at most the largest one
    seen without. *)
Theorem alpha_beta_grade_at_most_minimax move board depth alfa beta player
    st_player (a : Z) :
  py_max_list
    (snd (alpha_beta move board depth alfa beta player st_player []))
  = Some a ->
  exists b,
    py_max_list (snd (minimax move board depth player st_player []))
    = Some b
    /\ a <= b.
Proof.
  apply alpha_beta_maximum_bounded.
Qed.

End Accumulator.

(** ** Values and bounds in the selector's searches *)

Section Window.

Context {Board Move Square : Type} `{API : BoardAPI Board Move Square}.

Implicit Types (move : Move) (board : Board) (depth : nat).
Implicit Types (player st_player : Player) (alfa beta : Num).

Lemma max_step_not_posinf new_board depth st_player moves :
  (forall move list_h,
      fst (minimax move new_board depth PlayerTwo st_player list_h)
      <> PosInf) ->
  forall best_value list_h,
    best_value <> PosInf ->
    fst (fold_left (max_step new_board depth st_player) moves
           (best_value, list_h)) <> PosInf.
Proof.
  intros Hchild.
  induction moves as [|reply rest IH]; intros best_value list_h Hbest; simpl.
  - exact Hbest.
  - pose proof (Hchild reply list_h) as Hv.
    destruct (minimax reply new_board depth PlayerTwo st_player list_h)
      as [v list_h'].
    apply IH. now apply num_max_not_posinf.
Qed.

Lemma minimax_not_posinf depth :
  forall move board player st_player list_h,
    fst (minimax move board depth player st_player list_h) <> PosInf.
Proof.
  induction depth as [|depth IH];
    intros move board player st_player list_h.
  - discriminate.
  - rewrite minimax_succ.
    destruct (no_moves board player); [discriminate|].
    destruct player.
    + apply max_step_not_posinf; [intros; apply IH | discriminate].
    + rewrite min_step_neginf. discriminate.
Qed.

Section Loop.

Variable child : Move -> Num -> Num -> list Z -> Num * list Z.

Hypothesis child_not_posinf :
  forall move alfa beta answers,
    fst (child move alfa beta answers) <> PosInf.

Lemma max_loop_not_posinf moves :
  forall v alfa beta answers,
    v <> PosInf ->
    fst (max_loop child moves v alfa beta answers) <> PosInf.
Proof.
  induction moves as [|reply rest IH]; intros v alfa beta answers Hv; simpl.
  - exact Hv.
  - pose proof (child_not_posinf reply alfa beta answers) as Hr.
    destruct (child reply alfa beta answers) as [r answers'].
    simpl in Hr.
    destruct (Num.leb beta (Num.max alfa (Num.max v r))).
    + now apply num_max_not_posinf.
    + apply IH. now apply num_max_not_posinf.
Qed.

Lemma leb_posinf (alfa : Num) :
  alfa <> PosInf -> Num.leb PosInf alfa = false.
Proof. destruct alfa; simpl; congruence. Qed.

(** With [beta] at plus infinity the maximizing loop has no reason to
    break: it is the plain loop over all replies. *)
Lemma max_loop_open_window moves :
  forall v alfa answers,
    v <> PosInf -> alfa <> PosInf ->
    (forall move a acc,
        a <> PosInf -> child move a PosInf acc = child move NegInf PosInf acc)
    ->
    max_loop child moves v alfa PosInf answers
    = fold_left
        (fun '(v, answers) reply =>
           let '(r, answers) := child reply NegInf PosInf answers in
           (Num.max v r, answers))
        moves (v, answers).
Proof.
  induction moves as [|reply rest IH];
    intros v alfa answers Hv Halfa Hchild; simpl.
  - reflexivity.
  - rewrite (Hchild reply alfa answers Halfa).
    pose proof (child_not_posinf reply NegInf PosInf answers) as Hr.
    destruct (child reply NegInf PosInf answers) as [r answers'].
    simpl in Hr.
    assert (Hv' : Num.max v r <> PosInf) by now apply num_max_not_posinf.
    assert (Ha' : Num.max alfa (Num.max v r) <> PosInf)
      by now apply num_max_not_posinf.
    replace (match Num.max alfa (Num.max v r) with
             | PosInf => true
             | _ => false
             end)
      with (Num.leb PosInf (Num.max alfa (Num.max v r))) by reflexivity.
    rewrite (leb_posinf _ Ha').
    now apply IH.
Qed.

End Loop.

Lemma alpha_beta_not_posinf depth :
  forall move board alfa beta player st_player answers,
    fst (alpha_beta move board depth alfa beta player st_player answers)
    <> PosInf.
Proof.
  induction depth as [|depth IH];
    intros move board alfa beta player st_player answers.
  - discriminate.
  - rewrite alpha_beta_succ.
    destruct (no_moves board player); [discriminate|].
    destruct player.
    + apply max_loop_not_posinf; [intros; apply IH | discriminate].
    + rewrite min_loop_neginf. discriminate.
Qed.

(** X5. Neither search ever returns plus infinity: a call returns the
    grade of a board or minus infinity. *)
Theorem search_value_never_posinf move board depth alfa beta player
    st_player list_h :
  fst (minimax move board depth player st_player list_h) <> PosInf
  /\ fst (alpha_beta move board depth alfa beta player st_player list_h)
     <> PosInf.
Proof.
  split.
  - apply minimax_not_posinf.
  - apply alpha_beta_not_posinf.
Qed.

Lemma alpha_beta_alfa_irrelevant depth :
  forall move board alfa player st_player answers,
    alfa <> PosInf ->
    alpha_beta move board depth alfa PosInf player st_player answers
    = alpha_beta move board depth NegInf PosInf player st_player answers.
Proof.
  induction depth as [|depth IH];
    intros move board alfa player st_player answers Halfa.
  - reflexivity.
  - rewrite !alpha_beta_succ.
    destruct (no_moves board player); [reflexivity|].
    destruct player.
    + rewrite !max_loop_open_window;
        auto using alpha_beta_not_posinf; discriminate.
    + rewrite !min_loop_neginf.
      destruct (get_available_moves (apply move board) PlayerTwo)
        as [|first rest]; [reflexivity|].
      now rewrite IH.
Qed.

(** X6. Started with [beta] at plus infinity, as the selector starts
    it, [alpha_beta] does not depend on [alfa]: every lower bound other
    than plus infinity gives the value and the recorded leaves that
    minus infinity gives. *)
Theorem alpha_beta_open_window_ignores_alfa move board depth alfa player
    st_player answers :
  alfa <> PosInf ->
  alpha_beta move board depth alfa PosInf player st_player answers
  = alpha_beta move board depth NegInf PosInf player st_player answers.
Proof.
  apply alpha_beta_alfa_irrelevant.
Qed.

(** X7. Started with [beta] at plus infinity and [alfa] below it, a
    non-leaf call of [alpha_beta] with player 1 acting never cuts: it
    searches every reply in turn, each with the full window, and returns
    the running maximum. *)
Theorem maximizer_never_cuts_open_window move board depth alfa st_player
    answers :
  alfa <> PosInf ->
  no_moves board PlayerOne = false ->
  alpha_beta move board (S depth) alfa PosInf PlayerOne st_player answers
  = fold_left
      (fun '(v, answers) reply =>
         let '(r, answers) :=
           alpha_beta reply (apply move board) depth NegInf PosInf
             PlayerTwo st_player answers in
         (Num.max v r, answers))
      (get_available_moves (apply move board) PlayerOne)
      (NegInf, answers).
Proof.
  intros Halfa Hmoves.
  rewrite alpha_beta_succ, Hmoves.
  rewrite max_loop_open_window;
    auto using alpha_beta_not_posinf, alpha_beta_alfa_irrelevant.
  discriminate.
Qed.

End Window.

(** ** The last ply of [minimax] *)

Section LastPly.

Context {Board Move Square : Type} `{API : BoardAPI Board Move Square}.

Implicit Types (move : Move) (board : Board) (depth : nat).
Implicit Types (player st_player : Player).

Lemma minimax_leaf move board depth player st_player list_h :
  leaf_call board depth player ->
  minimax move board depth player st_player list_h
  = leaf board st_player list_h.
Proof.
  intros [-> | Hm]; [reflexivity|].
  apply no_moves_true in Hm.
  destruct depth as [|depth']; [reflexivity|].
  now rewrite minimax_succ, Hm.
Qed.

Lemma max_step_leaves new_board depth st_player moves :
  leaf_call new_board depth PlayerTwo ->
  forall best_value list_h,
    snd (fold_left (max_step new_board depth st_player) moves
           (best_value, list_h))
    = list_h
      ++ repeat (heuristic_function new_board st_player) (length moves).
Proof.
  intros Hleaf.
  induction moves as [|reply rest IH]; intros best_value list_h; simpl.
  - now rewrite app_nil_r.
  - rewrite minimax_leaf by assumption. unfold leaf.
    rewrite IH, <- app_assoc. reflexivity.
Qed.

Lemma min_step_leaves new_board depth st_player moves :
  leaf_call new_board depth PlayerOne ->
  forall best_value list_h,
    snd (fold_left (min_step new_board depth st_player) moves
           (best_value, list_h))
    = list_h
      ++ repeat (heuristic_function new_board st_player) (length moves).
Proof.
  intros Hleaf.
  induction moves as [|reply rest IH]; intros best_value list_h; simpl.
  - now rewrite app_nil_r.
  - rewrite minimax_leaf by assumption. unfold leaf.
    rewrite IH, <- app_assoc. reflexivity.
Qed.

(** X8. When the recursive calls of a non-leaf [minimax] call are leaf
    calls (one ply is left, or the other player cannot move on the
    post-move board), every one of them grades that same post-move board:
    the accumulator receives its grade once per enumerated reply, and no
    reply is ever applied. *)
Theorem minimax_last_ply_repeats_grade move board depth player st_player
    list_h :
  no_moves board player = false ->
  leaf_call (apply move board) depth (other player) ->
  snd (minimax move board (S depth) player st_player list_h)
  = list_h
    ++ repeat (heuristic_function (apply move board) st_player)
         (length (get_available_moves (apply move board) player)).
Proof.
  intros Hmoves Hleaf.
  rewrite minimax_succ, Hmoves.
  destruct player; simpl other in Hleaf.
  - now apply max_step_leaves.
  - now apply min_step_leaves.
Qed.

End LastPly.

(** ** More on the move selector *)

Lemma random_choice_some_in {A : Type} (r : nat) (xs : list A) (x : A) :
  random_choice r xs = Some x -> In x xs.
Proof.
  destruct xs as [|a rest]; [discriminate|].
  unfold random_choice. apply nth_error_In.
Qed.

Lemma best_moves_indeces_attain (grades : list Z) (i : nat) :
  In i (best_moves_indeces grades) ->
  exists best,
    nth_error grades i = Some best /\ py_max_list grades = Some best.
Proof.
  unfold best_moves_indeces. intros Hin.
  apply filter_In in Hin as [_ Hbest].
  destruct (nth_error grades i) as [g|]; [|discriminate].
  destruct (py_max_list grades) as [best|]; [|discriminate].
  apply Z.eqb_eq in Hbest. subst. now exists best.
Qed.

Lemma py_max_list_upper (xs : list Z) (best x : Z) :
  py_max_list xs = Some best -> In x xs -> x <= best.
Proof.
  destruct xs as [|y rest]; [discriminate|].
  simpl. intros [= <-] Hin. now apply fold_max_upper.
Qed.

Section Choice.

Context {Board Move Square : Type} `{API : BoardAPI Board Move Square}.

(** When every candidate still to be scored has a grade, the loop runs
    to its end and the choice is made among the best indices. *)
Lemma score_moves_scored (r : nat) (mode : string) (board : Board)
    (pl player : Player) (pos_moves : list Move) :
  forall (todo : list Move) (later earlier : list Z),
    map (fun move => py_max_list (run_search mode move board pl player []))
      todo
    = map Some later ->
    score_moves r mode board pl player pos_moves todo [] earlier
    = match random_choice r (best_moves_indeces (earlier ++ later)) with
      | Some i => nth_error pos_moves i
      | None => None
      end.
Proof.
  induction todo as [|move rest IH]; intros later earlier Hgrades.
  - destruct later; [|discriminate]. simpl. now rewrite app_nil_r.
  - destruct later as [|g later]; [discriminate|].
    simpl in Hgrades. injection Hgrades as Hg Hrest.
    simpl. rewrite Hg.
    rewrite (IH later (earlier ++ [g]) Hrest), <- app_assoc.
    reflexivity.
Qed.

(** X9. When the search of every candidate records at least one leaf,
    [get_next_move] returns a candidate whose grade is the largest of all
    candidates' grades, whatever the random draw. *)
Theorem selector_picks_best_grade (r : nat) (board : Board)
    (player : Player) (mode : string) (grades : list Z) (chosen : Move) :
  map (candidate_grade mode board player)
    (get_available_moves board player)
  = map Some grades ->
  get_next_move r board player mode = Some chosen ->
  exists i best,
    nth_error (get_available_moves board player) i = Some chosen
    /\ nth_error grades i = Some best
    /\ candidate_grade mode board player chosen = Some best
    /\ forall g, In g grades -> g <= best.
Proof.
  intros Hgrades Hchosen.
  unfold get_next_move in Hchosen. rewrite opponent_is_other in Hchosen.
  rewrite (score_moves_scored _ _ _ _ _ _ _ grades [] Hgrades) in Hchosen.
  simpl app in Hchosen.
  destruct (random_choice r (best_moves_indeces grades)) as [i|] eqn:Hi;
    [|discriminate].
  apply random_choice_some_in, best_moves_indeces_attain in Hi.
  destruct Hi as (best & Hnth & Hmax).
  exists i, best. repeat split; auto.
  - pose proof (f_equal (fun xs => nth_error xs i) Hgrades) as Hmap.
    simpl in Hmap. rewrite !nth_error_map, Hchosen, Hnth in Hmap.
    simpl in Hmap. now injection Hmap.
  - intros g. now apply py_max_list_upper.
Qed.

(** X10. [get_next_move] raises exactly when the player has no legal
    move: with an empty candidate list [random.choice] is called on an
    empty list, and with a non-empty one a move is returned. *)
Theorem selector_raises_iff_no_candidate (r : nat) (board : Board)
    (player : Player) (mode : string) :
  get_next_move r board player mode = None
  <-> get_available_moves board player = [].
Proof.
  split.
  - intros Hnone.
    destruct (get_available_moves board player) as [|move rest] eqn:E;
      [reflexivity|].
    assert (Hne : get_available_moves board player <> [])
      by (rewrite E; discriminate).
    destruct (score_moves_member r mode board
                (if player_id player =? 1 then PlayerTwo else PlayerOne)
                player _ (get_available_moves board player) [] [] Hne
                eq_refl)
      as (chosen & Hsome & _).
    unfold get_next_move in Hnone. congruence.
  - intros Hempty. unfold get_next_move. rewrite Hempty. reflexivity.
Qed.

(** X11. With a mode other than ['abpruning'] and ['minmax_simple'] no
    search is run, [list_h] stays empty, and [get_next_move] is
    [random.choice] over the candidates. *)
Theorem unknown_mode_chooses_at_random (r : nat) (board : Board)
    (player : Player) (mode : string) :
  mode <> "abpruning"%string ->
  mode <> "minmax_simple"%string ->
  get_next_move r board player mode
  = random_choice r (get_available_moves board player).
Proof.
  intros Hab Hmm. unfold get_next_move.
  destruct (get_available_moves board player) as [|move rest];
    [reflexivity|].
  simpl. unfold run_search.
  apply String.eqb_neq in Hab, Hmm. rewrite Hab, Hmm.
  reflexivity.
Qed.

Lemma get_next_move_member (r : nat) (board : Board) (player : Player)
    (mode : string) (chosen : Move) :
  get_next_move r board player mode = Some chosen ->
  In chosen (get_available_moves board player).
Proof.
  intros Hchosen.
  destruct (get_available_moves board player) as [|move rest] eqn:E.
  - unfold get_next_move in Hchosen. rewrite E in Hchosen. discriminate.
  - assert (Hne : get_available_moves board player <> [])
      by (rewrite E; discriminate).
    destruct (score_moves_member r mode board
                (if player_id player =? 1 then PlayerTwo else PlayerOne)
                player _ (get_available_moves board player) [] [] Hne
                eq_refl)
      as (chosen' & Hsome & Hin).
    unfold get_next_move in Hchosen.
    rewrite Hsome in Hchosen. injection Hchosen as <-.
    now rewrite <- E.
Qed.

End Choice.

(** * Properties of the arena *)

Section ArenaFacts.

Context {Board Move Square : Type} `{API : BoardAPI Board Move Square}.

Variable move_eqb : Move -> Move -> bool.
Variable check_game_over : Board -> Player -> bool.
Variable answer : nat -> Board -> Player -> Move.
Variable draw : nat -> Player -> nat.

Implicit Types (board : Board) (player : Player) (move_num : nat).

Lemma py_in_sound :
  (forall a b, move_eqb a b = true -> a = b) ->
  forall move allowed_moves,
    py_in move_eqb move allowed_moves = true -> In move allowed_moves.
Proof.
  intros Hsound move allowed_moves Hin.
  apply existsb_exists in Hin as (other_move & Hmem & Heq).
  now rewrite (Hsound _ _ Heq).
Qed.

Lemma get_player_move_member move_num board player (move : Move) :
  (forall a b, move_eqb a b = true -> a = b) ->
  get_player_move move_eqb answer draw move_num board player = Some move ->
  In move (get_available_moves board player).
Proof.
  intros Hsound. unfold get_player_move.
  destruct (py_in move_eqb (answer move_num board player)
              (get_available_moves board player)) eqn:E; simpl.
  - intros [= <-]. now apply py_in_sound.
  - apply random_choice_some_in.
Qed.

(** X12. When the player has a legal move and move equality identifies
    equal moves only, [get_player_move] returns a legal move whatever
    the keyboard or the server answered: an answer outside the legal
    moves is replaced by a random legal one. *)
Theorem get_player_move_is_legal move_num board player :
  (forall a b, move_eqb a b = true -> a = b) ->
  get_available_moves board player <> [] ->
  exists move,
    get_player_move move_eqb answer draw move_num board player = Some move
    /\ In move (get_available_moves board player).
Proof.
  intros Hsound Hne.
  destruct (get_player_move move_eqb answer draw move_num board player)
    as [move|] eqn:E.
  - exists move. split; [reflexivity|].
    eapply get_player_move_member; eassumption.
  - unfold get_player_move in E.
    destruct (py_in move_eqb (answer move_num board player)
                (get_available_moves board player)); simpl in E;
      [discriminate|].
    destruct (random_choice_in (draw move_num player) _ Hne)
      as (move & Hsome & _).
    congruence.
Qed.

(** X13. A move picked by [pick_next_move] passes the check of
    [get_player_move] unchanged, provided a move equals itself: the
    arena never replaces the selector's move by a random one. *)
Theorem arena_keeps_selector_move (r : nat) move_num board player :
  (forall move, move_eqb move move = true) ->
  pick_next_move r board player = Some (answer move_num board player) ->
  get_player_move move_eqb answer draw move_num board player
  = Some (answer move_num board player).
Proof.
  intros Hrefl Hpick.
  apply get_next_move_member in Hpick.
  unfold get_player_move.
  assert (Hin : py_in move_eqb (answer move_num board player)
                  (get_available_moves board player) = true).
  { apply existsb_exists. eexists. split; [exact Hpick | apply Hrefl]. }
  now rewrite Hin.
Qed.

(** The moves returned by the loop are the moves it started with,
    followed by two moves for every round played in full and one more
    when white's move ended the game. *)
Lemma play_rounds_length (numbers : list nat) :
  forall board (moves result : list Move) (reason : GameOverReason),
    play_rounds move_eqb check_game_over answer draw numbers board moves
    = Some (result, reason) ->
    match reason with
    | DRAW => length result = (length moves + 2 * length numbers)%nat
    | BLACK_WON =>
        exists k, (k < length numbers)%nat
                  /\ length result = (length moves + 2 * k)%nat
    | WHITE_WON =>
        exists k, (k < length numbers)%nat
                  /\ length result = (length moves + 2 * k + 1)%nat
    end.
Proof.
  induction numbers as [|move_number rest IH];
    intros board moves result reason Hrun; simpl in Hrun.
  - injection Hrun as <- <-. simpl. lia.
  - destruct (check_game_over board WHITE).
    { injection Hrun as <- <-. exists O. simpl. lia. }
    destruct (get_player_move move_eqb answer draw move_number board WHITE)
      as [white_move|]; [|discriminate].
    destruct (check_game_over (apply white_move board) BLACK).
    { injection Hrun as <- <-. exists O.
      rewrite length_app. simpl. lia. }
    destruct (get_player_move move_eqb answer draw move_number
                (apply white_move board) BLACK)
      as [black_move|]; [|discriminate].
    apply IH in Hrun. rewrite !length_app in Hrun. simpl in Hrun.
    destruct reason; simpl.
    + destruct Hrun as (k & Hk & Hlen). exists (S k). lia.
    + destruct Hrun as (k & Hk & Hlen). exists (S k). lia.
    + lia.
Qed.

(** X14. The outcome of [run_game] fixes the parity and a bound of the
    number of recorded moves: a draw has exactly 200 moves, a win of
    black an even number, at most 198, and a win of white an odd number,
    at most 199. *)
Theorem run_game_outcome_and_length (starting_board : Board)
    (moves : list Move) (reason : GameOverReason) :
  run_game move_eqb check_game_over answer draw starting_board
  = Some (moves, reason) ->
  match reason with
  | DRAW => length moves = 200%nat
  | BLACK_WON => Nat.Even (length moves) /\ (length moves <= 198)%nat
  | WHITE_WON => Nat.Odd (length moves) /\ (length moves <= 199)%nat
  end.
Proof.
  unfold run_game. intros Hrun.
  apply play_rounds_length in Hrun.
  rewrite length_seq in Hrun. unfold MAX_MOVES in Hrun. simpl length in Hrun.
  destruct reason.
  - destruct Hrun as (k & Hk & Hlen).
    split; [exists k; lia | lia].
  - destruct Hrun as (k & Hk & Hlen).
    split; [exists k; lia | lia].
  - lia.
Qed.

Lemma play_rounds_legal (numbers : list nat) :
  (forall a b, move_eqb a b = true -> a = b) ->
  forall board (moves result : list Move) (reason : GameOverReason),
    play_rounds move_eqb check_game_over answer draw numbers board moves
    = Some (result, reason) ->
    exists played,
      result = moves ++ played /\ legal_line board WHITE played.
Proof.
  intros Hsound.
  induction numbers as [|move_number rest IH];
    intros board moves result reason Hrun; simpl in Hrun.
  - injection Hrun as <- <-. exists []. now rewrite app_nil_r.
  - destruct (check_game_over board WHITE).
    { injection Hrun as <- <-. exists []. now rewrite app_nil_r. }
    destruct (get_player_move move_eqb answer draw move_number board WHITE)
      as [white_move|] eqn:Hw; [|discriminate].
    apply get_player_move_member in Hw; [|assumption].
    destruct (check_game_over (apply white_move board) BLACK).
    { injection Hrun as <- <-. exists [white_move]. simpl. auto. }
    destruct (get_player_move move_eqb answer draw move_number
                (apply white_move board) BLACK)
      as [black_move|] eqn:Hb; [|discriminate].
    apply get_player_move_member in Hb; [|assumption].
    apply IH in Hrun as (played & -> & Hlegal).
    exists (white_move :: black_move :: played). split.
    + now rewrite <- !app_assoc.
    + simpl. auto.
Qed.

(** X15. Whatever the players answer, the moves recorded by [run_game]
    form a legal line of play from the starting board, white moving
    first and the players alternating, provided move equality identifies
    equal moves only. *)
Theorem run_game_records_legal_line (starting_board : Board)
    (moves : list Move) (reason : GameOverReason) :
  (forall a b, move_eqb a b = true -> a = b) ->
  run_game move_eqb check_game_over answer draw starting_board
  = Some (moves, reason) ->
  legal_line starting_board WHITE moves.
Proof.
  intros Hsound Hrun. unfold run_game in Hrun.
  apply play_rounds_legal in Hrun as (played & -> & Hlegal);
    assumption.
Qed.

End ArenaFacts.

Section ArenaTermination.

Context {Board Move Square : Type} `{API : BoardAPI Board Move Square}.

Variable move_eqb : Move -> Move -> bool.
Variable check_game_over : Board -> Player -> bool.
Variable answer : nat -> Board -> Player -> Move.
Variable draw : nat -> Player -> nat.

Hypothesis can_move_unless_over :
  forall (board : Board) (player : Player),
    check_game_over board player = false ->
    get_available_moves board player <> [].

Lemma get_player_move_some (move_num : nat) (board : Board)
    (player : Player) :
  get_available_moves board player <> [] ->
  exists move,
    get_player_move move_eqb answer draw move_num board player = Some move.
Proof.
  intros Hne. unfold get_player_move.
  destruct (py_in move_eqb (answer move_num board player)
              (get_available_moves board player)); simpl.
  - eexists. reflexivity.
  - destruct (random_choice_in (draw move_num player) _ Hne)
      as (move & Hsome & _).
    now exists move.
Qed.

Lemma play_rounds_returns (numbers : list nat) :
  forall (board : Board) (moves : list Move),
    exists result,
      play_rounds move_eqb check_game_over answer draw numbers board moves
      = Some result.
Proof.
  induction numbers as [|move_number rest IH]; intros board moves; simpl.
  - eexists. reflexivity.
  - destruct (check_game_over board WHITE) eqn:Hw;
      [eexists; reflexivity|].
    destruct (get_player_move_some move_number board WHITE
                (can_move_unless_over _ _ Hw))
      as (white_move & ->).
    destruct (check_game_over (apply white_move board) BLACK) eqn:Hb;
      [eexists; reflexivity|].
    destruct (get_player_move_some move_number (apply white_move board)
                BLACK (can_move_unless_over _ _ Hb))
      as (black_move & ->).
    apply IH.
Qed.

(** X16. If a player for whom the game is not over always has a legal
    move, [run_game] never raises: whatever the players answer and
    whatever is drawn, it returns the recorded moves and an outcome. *)
Theorem run_game_returns (starting_board : Board) :
  exists moves reason,
    run_game move_eqb check_game_over answer draw starting_board
    = Some (moves, reason).
Proof.
  destruct (play_rounds_returns (seq 1 MAX_MOVES) starting_board [])
    as ([moves reason] & Hrun).
  now exists moves, reason.
Qed.

End ArenaTermination.

(** * The further properties at work on the synthetic games *)

Lemma alpha_beta_records_minimax_leaves_witness :
  In 0 (snd (minimax Synthetic.fork Synthetic.start 2 PlayerTwo
               PlayerOne [])).
Proof.
  exact (alpha_beta_records_minimax_leaves Synthetic.fork Synthetic.start 2
           NegInf PosInf PlayerTwo PlayerOne 0 (or_introl eq_refl)).
Defined.

Lemma alpha_beta_grade_at_most_minimax_witness :
  exists b,
    py_max_list
      (snd (minimax Synthetic.fork Synthetic.start 2 PlayerTwo PlayerOne []))
    = Some b
    /\ 0 <= b.
Proof.
  exact (alpha_beta_grade_at_most_minimax Synthetic.fork Synthetic.start 2
           NegInf PosInf PlayerTwo PlayerOne 0 eq_refl).
Defined.

Lemma alpha_beta_open_window_ignores_alfa_witness :
  alpha_beta Synthetic.fork Synthetic.start 2 (Int 7) PosInf
    PlayerOne PlayerOne [3]
  = alpha_beta Synthetic.fork Synthetic.start 2 NegInf PosInf
      PlayerOne PlayerOne [3].
Proof.
  apply (alpha_beta_open_window_ignores_alfa Synthetic.fork Synthetic.start
           2 (Int 7) PlayerOne PlayerOne [3]).
  discriminate.
Defined.

Lemma maximizer_never_cuts_open_window_witness :
  alpha_beta Synthetic.fork Synthetic.start 2 (Int 7) PosInf
    PlayerOne PlayerOne []
  = fold_left
      (fun '(v, answers) reply =>
         let '(r, answers) :=
           alpha_beta reply Synthetic.fork 1 NegInf PosInf
             PlayerTwo PlayerOne answers in
         (Num.max v r, answers))
      (get_available_moves Synthetic.fork PlayerOne)
      (NegInf, []).
Proof.
  assert (Halfa : Int 7 <> PosInf) by discriminate.
  assert (Hmoves : no_moves Synthetic.start PlayerOne = false)
    by reflexivity.
  exact (maximizer_never_cuts_open_window Synthetic.fork Synthetic.start 1
           (Int 7) PlayerOne [] Halfa Hmoves).
Defined.

(** One ply is left below [start]: both replies on [fork] are leaf
    calls and record the grade of [fork] itself. *)
Lemma minimax_last_ply_repeats_grade_witness :
  snd (minimax Synthetic.fork Synthetic.start 1 PlayerTwo PlayerOne [5])
  = [5; 1; 1].
Proof.
  assert (Hmoves : no_moves Synthetic.start PlayerTwo = false)
    by reflexivity.
  assert (Hleaf : leaf_call (apply Synthetic.fork Synthetic.start) 0
                    (other PlayerTwo))
    by (left; reflexivity).
  exact (minimax_last_ply_repeats_grade Synthetic.fork Synthetic.start 0
           PlayerTwo PlayerOne [5] Hmoves Hleaf).
Defined.

(** On [choice] the candidates [trade] and [hold] are graded 0 and 1:
    [hold] is returned. *)
Lemma selector_picks_best_grade_witness :
  exists i best,
    nth_error (get_available_moves Opening.choice PlayerOne) i
    = Some Opening.hold
    /\ nth_error [0; 1] i = Some best
    /\ candidate_grade "abpruning" Opening.choice PlayerOne Opening.hold
       = Some best
    /\ forall g, In g [0; 1] -> g <= best.
Proof.
  exact (selector_picks_best_grade 3 Opening.choice PlayerOne "abpruning"
           [0; 1] Opening.hold eq_refl eq_refl).
Defined.

Lemma unknown_mode_chooses_at_random_witness :
  get_next_move 1 Opening.choice PlayerOne "montecarlo"
  = random_choice 1 (get_available_moves Opening.choice PlayerOne).
Proof.
  apply (unknown_mode_chooses_at_random 1 Opening.choice PlayerOne
           "montecarlo"); discriminate.
Defined.

(** One counter is left and the provider asks for two: the answer is
    replaced. *)
Lemma get_player_move_is_legal_witness :
  exists move,
    get_player_move Nat.eqb Pile.greedy Pile.no_draw 1 1%nat WHITE
    = Some move
    /\ In move (get_available_moves 1%nat WHITE).
Proof.
  apply (get_player_move_is_legal Nat.eqb Pile.greedy Pile.no_draw 1
           1%nat WHITE).
  - intros a b Heq. now apply Nat.eqb_eq.
  - discriminate.
Defined.

Lemma arena_keeps_selector_move_witness :
  get_player_move Nat.eqb (fun _ _ _ => 1%nat) Pile.no_draw 1 5%nat WHITE
  = Some 1%nat.
Proof.
  apply (arena_keeps_selector_move Nat.eqb (fun _ _ _ => 1%nat)
           Pile.no_draw 0 1 5%nat WHITE).
  - apply Nat.eqb_refl.
  - reflexivity.
Defined.

(** Five counters, both players greedy: white takes the last counter
    with the third move. *)
Lemma run_game_outcome_and_length_witness :
  Nat.Odd 3 /\ (3 <= 199)%nat.
Proof.
  exact (run_game_outcome_and_length Nat.eqb Pile.is_over Pile.greedy
           Pile.no_draw 5%nat [2%nat; 2%nat; 1%nat] WHITE_WON eq_refl).
Defined.

Lemma run_game_records_legal_line_witness :
  legal_line 5%nat WHITE [2%nat; 2%nat; 1%nat].
Proof.
  apply (run_game_records_legal_line Nat.eqb Pile.is_over Pile.greedy
           Pile.no_draw 5%nat [2%nat; 2%nat; 1%nat] WHITE_WON).
  - intros a b Heq. now apply Nat.eqb_eq.
  - reflexivity.
Defined.

Lemma run_game_returns_witness :
  exists moves reason,
    run_game Nat.eqb Pile.is_over Pile.greedy Pile.no_draw 7%nat
    = Some (moves, reason).
Proof.
  apply (run_game_returns Nat.eqb Pile.is_over Pile.greedy Pile.no_draw).
  intros [|[|board]] player; simpl; discriminate.
Defined.

(** Nobody can move on [bare]. *)
Lemma selector_raises_iff_no_candidate_witness :
  get_next_move 2 Synthetic.bare PlayerOne "abpruning" = None.
Proof.
  apply (selector_raises_iff_no_candidate 2 Synthetic.bare PlayerOne
           "abpruning").
  reflexivity.
Defined.
